(** * go-simplejson: navigation, coercion and mutation of dynamic JSON values

    A shallow embedding of [simplejson.go] (package [simplejson]) and the
    properties of its path navigation ([Get], [CheckGet]), its defaulted
    accessors ([String], [Int], [Array], ...) and its mutators ([Set],
    [SetPath], [Del]).

    Modelling conventions.
    - A Go [interface{}] holding decoded JSON is the inductive type [value].
      Go maps are [gmap string value]; Go slices of values are lists.
      Documents are finite trees, as [encoding/json] produces them, so the
      in-place map writes of [Set], [SetPath] and [Del] are rendered as
      functional updates of the wrapper they are called on.
    - A nil slice or nil map ([var def []interface{}]) is [None] in [option].
    - A call either returns or panics (an index expression out of range, or
      [log.Panicf]); this is the [outcome] monad.
    - A pointer to a [Json] that may be nil is a [ptr], with [None] for
      nil; the lookups return the pair of such a pointer and the flag, as the
      source does. Methods are called on valid receivers; the loop of
      [CheckGet], whose cursor is a pointer variable, dereferences it. *)

From Stdlib Require Import ZArith QArith Qpower SpecFloat.
From stdpp Require Import gmap strings list fin_maps.

Local Open Scope string_scope.
Local Open Scope list_scope.
Local Open Scope Z_scope.

(** ** Data model *)

(** The dynamic payload of a [Json]: what the type switches and type
    assertions of the source can tell apart. A JSON number is a binary
    floating-point datum (sign, mantissa, exponent), which may be an
    infinity or NaN. *)
#[warnings="-register-all"]
Inductive value : Type :=
| VNil
| VBool (b : bool)
| VNum (f : spec_float)
| VString (s : string)
| VArray (a : list value)
| VMap (m : gmap string value).

(** [type Json struct { data interface{} }] *)
Record Json : Type := mkJson { data : value }.

(** A step of a branch, [branch ...interface{}]: the type switch of
    [CheckGet] separates [string], [int] and everything else. An [int] is
    in [Z]: the source compares it with a length and does no arithmetic on
    it. *)
Inductive step : Type :=
| PKey (key : string)
| PIndex (index : Z)
| POther.

(** ** Effects: errors and panics *)

(** [errors.New(msg)] as the second component of a [(T, error)] result. *)
Inductive result (A : Type) : Type :=
| Ok (a : A)
| Err (msg : string).
Arguments Ok {A} a.
Arguments Err {A} msg.

(** Why a call did not return. *)
Inductive panic_cause : Type :=
| IndexOutOfRange (index : Z) (len : nat)
| NilDereference
| TooManyArguments (fn : string) (n : nat).

Inductive outcome (A : Type) : Type :=
| Ret (a : A)
| Panic (c : panic_cause).
Arguments Ret {A} a.
Arguments Panic {A} c.

Definition obind {A B : Type} (x : outcome A) (k : A → outcome B) : outcome B :=
  match x with
  | Ret a => k a
  | Panic c => Panic c
  end.

Notation "x ←! e ; k" := (obind e (fun x => k))
  (at level 100, e at next level, right associativity,
   format "x  ←!  e ;  '/' k").

Definition returns {A : Type} (x : outcome A) : Prop :=
  match x with Ret _ => True | Panic _ => False end.

(** A [*Json]; [None] is nil. *)
Abbreviation ptr := (option Json).

(** Reading a field through a pointer. *)
Definition deref (p : ptr) : outcome Json :=
  match p with
  | Some j => Ret j
  | None => Panic NilDereference
  end.

(** ** Construction *)

(** [New]: a wrapper around a fresh empty map. *)
Definition New : Json := mkJson (VMap ∅).

(** [Interface] *)
Definition Interface (j : Json) : value := data j.

(** The value [&Json{nil}] that [Get] hands out when the branch does not
    resolve. *)
Definition sentinel : Json := mkJson VNil.

(** ** Type-checked accessors *)

Definition CheckMap (j : Json) : result (gmap string value) :=
  match data j with
  | VMap m => Ok m
  | _ => Err "type assertion to map[string]interface{} failed"
  end.

Definition CheckArray (j : Json) : result (list value) :=
  match data j with
  | VArray a => Ok a
  | _ => Err "type assertion to []interface{} failed"
  end.

Definition CheckBool (j : Json) : result bool :=
  match data j with
  | VBool s => Ok s
  | _ => Err "type assertion to bool failed"
  end.

Definition CheckString (j : Json) : result string :=
  match data j with
  | VString s => Ok s
  | _ => Err "type assertion to string failed"
  end.

(** [CheckJsonMap]: a copy of the map with every value wrapped. *)
Definition CheckJsonMap (j : Json) : result (gmap string Json) :=
  match CheckMap j with
  | Err msg => Err msg
  | Ok m => Ok (mkJson <$> m)
  end.

(** [CheckJsonArray]: a copy of the array with every value wrapped. *)
Definition CheckJsonArray (j : Json) : result (list Json) :=
  match CheckArray j with
  | Err msg => Err msg
  | Ok a => Ok (mkJson <$> a)
  end.

(** ** Navigation *)

(** The Go index expression [a[index]] on a slice: it panics outside
    [0 <= index < len(a)]. *)
Definition index_expr (a : list value) (index : Z) : outcome value :=
  if 0 <=? index then
    match a !! Z.to_nat index with
    | Some v => Ret v
    | None => Panic (IndexOutOfRange index (length a))
    end
  else Panic (IndexOutOfRange index (length a)).

Definition getKey (key : string) (j : Json) : ptr * bool :=
  match CheckMap j with
  | Ok m =>
      match m !! key with
      | Some val => (Some (mkJson val), true)
      | None => (None, false)
      end
  | Err _ => (None, false)
  end.

Definition getIndex (index : Z) (j : Json) : outcome (ptr * bool) :=
  match CheckArray j with
  | Ok a =>
      if Z.of_nat (length a) >? index then
        val ←! index_expr a index; Ret (Some (mkJson val), true)
      else Ret (None, false)
  | Err _ => Ret (None, false)
  end.

(** The loop of [CheckGet] over the rest of the branch, with the cursor
    [jin] and the type switch on the step. *)
Fixpoint CheckGet_loop (branch : list step) (jin : ptr) : outcome (ptr * bool) :=
  match branch with
  | [] => Ret (jin, true)
  | p :: rest =>
      r ←! match p with
           | PKey key => j ←! deref jin; Ret (getKey key j)
           | PIndex index => j ←! deref jin; getIndex index j
           | POther => Ret (jin, false)
           end;
      if r.2 then CheckGet_loop rest r.1 else Ret (None, false)
  end.

Definition CheckGet (branch : list step) (j : Json) : outcome (ptr * bool) :=
  CheckGet_loop branch (Some j).

Definition Get (branch : list step) (j : Json) : outcome ptr :=
  r ←! CheckGet branch j;
  if r.2 then Ret r.1 else Ret (Some sentinel).

(** ** Defaulted accessors *)

(** The body the ten accessors share: the switch on [len(args)] that picks
    the default (the zero value of a [var def T], the single argument, or a
    [log.Panicf]), then the [Check*] call. [ok] injects the checked value
    into the return type. *)
Definition defaulted {A B : Type} (fn : string) (zero : B) (ok : A → B)
    (check : Json → result A) (args : list B) (j : Json) : outcome B :=
  def ←! match args with
         | [] => Ret zero
         | [d] => Ret d
         | _ => Panic (TooManyArguments fn (length args))
         end;
  match check j with
  | Ok a => Ret (ok a)
  | Err _ => Ret def
  end.

(** A slice or map variable, which may be nil. *)
Abbreviation slice A := (option (list A)).
Abbreviation gomap A := (option (gmap string A)).

Definition JsonArray : list (slice Json) → Json → outcome (slice Json) :=
  defaulted "JsonArray" None Some CheckJsonArray.

Definition JsonMap : list (gomap Json) → Json → outcome (gomap Json) :=
  defaulted "JsonMap" None Some CheckJsonMap.

Definition Array : list (slice value) → Json → outcome (slice value) :=
  defaulted "Array" None Some CheckArray.

Definition Map : list (gomap value) → Json → outcome (gomap value) :=
  defaulted "Map" None Some CheckMap.

Definition String : list string → Json → outcome string :=
  defaulted "String" "" id CheckString.

Definition Bool : list bool → Json → outcome bool :=
  defaulted "Bool" false id CheckBool.

(** [Int], [Float64], [Int64] and [Uint64] call [CheckInt], [CheckFloat64],
    [CheckInt64] and [CheckUint64], which [simplejson.go] does not declare:
    the four are parameters here. Values of the integer types are in [Z]. *)
Section NumericAccessors.

Variables CheckInt CheckInt64 CheckUint64 : Json → result Z.
Variable CheckFloat64 : Json → result spec_float.

Definition Int : list Z → Json → outcome Z :=
  defaulted "Int" 0 id CheckInt.

Definition Float64 : list spec_float → Json → outcome spec_float :=
  defaulted "Float64" (S754_zero false) id CheckFloat64.

Definition Int64 : list Z → Json → outcome Z :=
  defaulted "Int64" 0 id CheckInt64.

Definition Uint64 : list Z → Json → outcome Z :=
  defaulted "Uint64" 0 id CheckUint64.

End NumericAccessors.

(** ** Mutation *)

(** [Set] ([Set] itself is a reserved word here): [m[key] = val] on the map
    of [j], nothing otherwise. *)
Definition Set_ (key : string) (val : value) (j : Json) : Json :=
  match CheckMap j with
  | Err _ => j
  | Ok m => mkJson (VMap (<[key := val]> m))
  end.

(** [Del]: [delete(m, key)] on the map of [j], nothing otherwise. *)
Definition Del (key : string) (j : Json) : Json :=
  match CheckMap j with
  | Err _ => j
  | Ok m => mkJson (VMap (delete key m))
  end.

(** The loop of [SetPath] and its last assignment, from the map [curr] on:
    the result is [curr] after the writes made to it and below it. For
    every key but the last, [curr] moves into the map under that key, which
    is a fresh one when the key is missing or holds something else. *)
Fixpoint setBranch (branch : list string) (val : value)
    (curr : gmap string value) : gmap string value :=
  match branch with
  | [] => curr
  | [last] => <[last := val]> curr
  | b :: rest =>
      match curr !! b with
      | None => <[b := VMap (setBranch rest val ∅)]> curr
      | Some (VMap n) => <[b := VMap (setBranch rest val n)]> curr
      | Some _ => <[b := VMap (setBranch rest val ∅)]> curr
      end
  end.

Definition SetPath (branch : list string) (val : value) (j : Json) : Json :=
  match branch with
  | [] => mkJson val
  | _ :: _ =>
      let curr := match data j with
                  | VMap m => m
                  | _ => ∅
                  end in
      mkJson (VMap (setBranch branch val curr))
  end.

(** ** Numeric coercions *)

(** The value of a binary float as a rational; infinities and NaN have
    none. *)
Definition float_value (f : spec_float) : option Q :=
  match f with
  | S754_zero _ => Some (inject_Z 0)
  | S754_finite s m e =>
      Some (inject_Z (if s then Z.neg m else Z.pos m) * Qpower (inject_Z 2) e)%Q
  | S754_infinity _ | S754_nan => None
  end.

(** The least and greatest values of [int64] and [uint64]; Go's [int] is
    taken at its 64-bit width. *)
Definition minInt64 : Z := - 2 ^ 63.
Definition maxInt64 : Z := 2 ^ 63 - 1.
Definition maxUint64 : Z := 2 ^ 64 - 1.

Module SpecModel.

(** Modelled from the spec: the one error kind of the numeric coercions
    (section 4.3, type assertion failed). *)
Definition TypeMismatch {A : Type} : result A := Err "type assertion failed".

(** Modelled from the spec: the integer that the numeric coercions, which
    are not in [simplejson.go], return for a float that denotes one: the
    mantissa shifted by the exponent, provided no set bit is shifted
    out. *)
Definition integral (f : spec_float) : option Z :=
  match f with
  | S754_zero _ => Some 0
  | S754_finite s m e =>
      let z := if s then Z.neg m else Z.pos m in
      if 0 <=? e then Some (z * 2 ^ e)
      else if z mod 2 ^ (- e) =? 0 then Some (z / 2 ^ (- e))
      else None
  | S754_infinity _ | S754_nan => None
  end.

(** Modelled from the spec: [CheckInt], [CheckInt64], [CheckUint64] and
    [CheckFloat64] are called by [Int], [Int64], [Uint64] and [Float64]
    but are declared outside [simplejson.go]. The spec (section 4.3) has
    them map a numeric value to an integer, failing with the one
    TypeMismatch error when the number is non-finite, has a fractional
    part or does not fit the target width, and to a floating-point number
    for [CheckFloat64]. [lo] and [hi] are the least and greatest integer
    of the target type. *)
Definition checkIntegral (lo hi : Z) (j : Json) : result Z :=
  match data j with
  | VNum f =>
      match integral f with
      | Some z =>
          if (lo <=? z) && (z <=? hi) then Ok z
          else TypeMismatch
      | None => TypeMismatch
      end
  | _ => TypeMismatch
  end.

(** Modelled from the spec: see [checkIntegral]. *)
Definition CheckInt : Json → result Z := checkIntegral minInt64 maxInt64.

(** Modelled from the spec: see [checkIntegral]. *)
Definition CheckInt64 : Json → result Z := checkIntegral minInt64 maxInt64.

(** Modelled from the spec: see [checkIntegral]. *)
Definition CheckUint64 : Json → result Z := checkIntegral 0 maxUint64.

(** Modelled from the spec: see [checkIntegral]. *)
Definition CheckFloat64 (j : Json) : result spec_float :=
  match data j with
  | VNum f => Ok f
  | _ => TypeMismatch
  end.

End SpecModel.

(** ** The loops of [CheckJsonArray] and [CheckJsonMap] *)

(** The Go assignment [ja[key] = x] to a slot of a slice: it panics outside
    the slice. *)
Definition index_assign (ja : list ptr) (key : nat) (x : ptr) :
    outcome (list ptr) :=
  if decide (key < length ja)%nat then Ret (<[key := x]> ja)
  else Panic (IndexOutOfRange (Z.of_nat key) (length ja)).

(** The range loop of [CheckJsonArray] from the index [key] on, over the
    rest [a] of the array: [ja[key] = &Json{val}]. *)
Fixpoint rangeJsonArray (key : nat) (a : list value) (ja : list ptr) :
    outcome (list ptr) :=
  match a with
  | [] => Ret ja
  | val :: rest =>
      ja' ←! index_assign ja key (Some (mkJson val));
      rangeJsonArray (S key) rest ja'
  end.

(** [CheckJsonArray] as it is written: [make([]*Json, len(a))], a slice of
    nil pointers, then the loop. *)
Definition CheckJsonArray_loop (j : Json) : outcome (result (list ptr)) :=
  match CheckArray j with
  | Err msg => Ret (Err msg)
  | Ok a =>
      ja ←! rangeJsonArray 0 a (replicate (length a) None);
      Ret (Ok ja)
  end.

(** The range loop of [CheckJsonMap] over the entries of the map in the
    order [entries] in which the range yields them, from the empty map of
    [make(map[string]*Json)]: [jm[key] = &Json{val}]. *)
Definition rangeJsonMap (entries : list (string * value)) : gmap string ptr :=
  fold_left (λ jm kv, <[kv.1 := Some (mkJson kv.2)]> jm) entries ∅.

(** ** Vocabulary of the properties *)

(** The map a value is when it is one, the empty map otherwise: what
    [SetPath] continues with at a node. *)
Definition asObject (v : value) : gmap string value :=
  match v with
  | VMap m => m
  | _ => ∅
  end.

Definition isObject (j : Json) : bool :=
  match data j with
  | VMap _ => true
  | _ => false
  end.

(** The object found in [j] along the keys [p] (the empty one when the
    walk fails or ends on something else). *)
Definition objectAt (p : list string) (j : Json) : gmap string value :=
  match CheckGet (PKey <$> p) j with
  | Ret (Some jin, true) => asObject (data jin)
  | _ => ∅
  end.

(** What a defaulted accessor returns for no argument and for one: the
    checked value when [check] succeeds, else the zero value or the given
    default. *)
Definition defaults_to {A B : Type} (acc : list B → Json → outcome B)
    (check : Json → result A) (ok : A → B) (zero : B) : Prop :=
  ∀ j : Json,
    acc [] j = Ret (match check j with Ok a => ok a | Err _ => zero end) ∧
    ∀ d : B,
      acc [d] j = Ret (match check j with Ok a => ok a | Err _ => d end).

(** A defaulted accessor given two arguments or more panics, whatever it
    is called on. *)
Definition aborts_on_misuse {B : Type} (fn : string)
    (acc : list B → Json → outcome B) : Prop :=
  ∀ (d1 d2 : B) (ds : list B) (j : Json),
    acc (d1 :: d2 :: ds) j = Panic (TooManyArguments fn (2 + length ds)).

(** [f] is a finite number whose value is the integer [z], and [z] lies
    in the range [lo .. hi] of the target type: the number is represented
    by [z] without loss. *)
Definition lossless (lo hi : Z) (f : spec_float) (z : Z) : Prop :=
  (∃ q : Q, float_value f = Some q ∧ (q == inject_Z z)%Q) ∧ lo ≤ z ≤ hi.

(** The array [[1, 2]] and the documents [{"a": [1, 2]}] and
    [{"n": null}]. *)
Definition array_12 : value :=
  VArray [VNum (S754_finite false 1 0); VNum (S754_finite false 1 1)].
Definition doc_a12 : Json := mkJson (VMap {[ "a" := array_12 ]}).
Definition doc_null : Json := mkJson (VMap {[ "n" := VNil ]}).

(** The document [{"x": [1, 2]}]. *)
Definition doc_x12 : Json := mkJson (VMap {[ "x" := array_12 ]}).

(** The floats 3.0 and 3.5. *)
Definition three : spec_float := S754_finite false 3 0.
Definition three_and_half : spec_float := S754_finite false 7 (-1).

(** The sub-value a branch names in a value, by the rules of the walk:
    a key selects in an object, an index from 0 up to the length selects in
    an array, and nothing else selects. This is the reference that
    [CheckGet] is compared with; it is not taken from the code. *)
Fixpoint spec_resolve (branch : list step) (v : value) : option value :=
  match branch with
  | [] => Some v
  | PKey key :: rest =>
      match v with
      | VMap m => m !! key ≫= spec_resolve rest
      | _ => None
      end
  | PIndex index :: rest =>
      match v with
      | VArray a =>
          if 0 <=? index then a !! Z.to_nat index ≫= spec_resolve rest
          else None
      | _ => None
      end
  | POther :: _ => None
  end.

(** No step of the branch is a negative index. *)
Definition nonnegative_indices (branch : list step) : Prop :=
  Forall (λ p, match p with PIndex index => 0 ≤ index | _ => True end) branch.

(** The wrapper [SetPath] starts from: [j] itself when it holds an object,
    a wrapper of a fresh empty map otherwise. *)
Definition rootObject (j : Json) : Json := if isObject j then j else New.

(** The document [{"a": {"b": [1, 2, {"c": "x"}]}}] of the spec. *)
Definition doc_nested : Json :=
  mkJson (VMap {[ "a" := VMap {[ "b" :=
    VArray [VNum (S754_finite false 1 0); VNum (S754_finite false 1 1);
            VMap {[ "c" := VString "x" ]}] ]} ]}).

(** * Properties *)

(** ** One step of the walk *)

Lemma getKey_object (key : string) (m : gmap string value) :
  getKey key (mkJson (VMap m)) =
    match m !! key with
    | Some val => (Some (mkJson val), true)
    | None => (None, false)
    end.
Proof. reflexivity. Qed.

Lemma getKey_not_object (key : string) (j : Json) :
  isObject j = false → getKey key j = (None, false).
Proof. destruct j as [[]]; simpl; done. Qed.

Lemma getIndex_not_array (index : Z) (j : Json) :
  (∀ a, data j ≠ VArray a) → getIndex index j = Ret (None, false).
Proof.
  intros Hj. unfold getIndex, CheckArray.
  destruct (data j) eqn:E; try done. by destruct (Hj a).
Qed.

(** An index within the bounds selects the element. *)
Lemma getIndex_in_range (index : Z) (a : list value) :
  0 ≤ index < Z.of_nat (length a) →
  ∃ v, a !! Z.to_nat index = Some v ∧
       getIndex index (mkJson (VArray a)) = Ret (Some (mkJson v), true).
Proof.
  intros [Hlo Hhi]. unfold getIndex, index_expr; simpl.
  destruct (Z.gtb_spec (Z.of_nat (length a)) index) as [_|]; [|lia].
  destruct (Z.leb_spec 0 index) as [_|]; [|lia].
  destruct (lookup_lt_is_Some_2 a (Z.to_nat index)) as [v Hv]; [lia|].
  exists v. by rewrite Hv.
Qed.

(** An index at or beyond the length is reported as not found. *)
Lemma getIndex_beyond (index : Z) (a : list value) :
  Z.of_nat (length a) ≤ index →
  getIndex index (mkJson (VArray a)) = Ret (None, false).
Proof.
  intros Hhi. unfold getIndex; simpl.
  by destruct (Z.gtb_spec (Z.of_nat (length a)) index); [lia|].
Qed.

(** A negative index passes the test [len(a) > index] and reaches the index
    expression, which panics. *)
Lemma getIndex_negative (index : Z) (a : list value) :
  index < 0 →
  getIndex index (mkJson (VArray a)) = Panic (IndexOutOfRange index (length a)).
Proof.
  intros Hneg. unfold getIndex, index_expr; simpl.
  destruct (Z.gtb_spec (Z.of_nat (length a)) index) as [_|]; [|lia].
  by destruct (Z.leb_spec 0 index); [lia|].
Qed.

(** The walk, one step at a time, by the shapes of the step and of the
    current value. *)
Lemma CheckGet_step (p : step) (rest : list step) (j : Json) :
  CheckGet (p :: rest) j =
    match p, data j with
    | PKey key, VMap m =>
        match m !! key with
        | Some v => CheckGet rest (mkJson v)
        | None => Ret (None, false)
        end
    | PIndex index, VArray a =>
        if index <? 0 then Panic (IndexOutOfRange index (length a))
        else match a !! Z.to_nat index with
             | Some v => CheckGet rest (mkJson v)
             | None => Ret (None, false)
             end
    | _, _ => Ret (None, false)
    end.
Proof.
  unfold CheckGet. destruct j as [d]. destruct p as [key|index|]; simpl.
  - destruct d; try done. rewrite getKey_object. by destruct (m !! key).
  - destruct d; try done.
    destruct (Z.ltb_spec index 0) as [Hneg|Hpos].
    + by rewrite getIndex_negative.
    + destruct (a !! Z.to_nat index) as [v|] eqn:Hv.
      * destruct (getIndex_in_range index a) as (v' & Hv' & ->).
        { split; [done|]. apply lookup_lt_Some in Hv. lia. }
        simpl. congruence.
      * rewrite getIndex_beyond; [done|].
        apply lookup_ge_None in Hv. lia.
  - done.
Qed.

(** The flag tells whether the pointer is valid: a walk that finds returns
    a wrapper, a walk that does not returns nil. *)
Lemma CheckGet_flag (branch : list step) (j : Json) (r : ptr) (ok : bool) :
  CheckGet branch j = Ret (r, ok) →
  if ok then is_Some r else r = None.
Proof.
  revert j. induction branch as [|p rest IH]; intros j.
  - intros [= <- <-]. by eexists.
  - rewrite CheckGet_step.
    destruct p as [key|index|], (data j) as [| | | |a|m]; simpl;
      try (by intros [= <- <-]).
    + destruct (m !! key); [apply IH | by intros [= <- <-]].
    + destruct (index <? 0); [done|].
      destruct (a !! Z.to_nat index); [apply IH | by intros [= <- <-]].
Qed.

(** The one way a walk panics: a negative index on an array. The cursor is
    never nil when it is dereferenced. *)
Lemma CheckGet_panic (branch : list step) (j : Json) (c : panic_cause) :
  CheckGet branch j = Panic c →
  ∃ (index : Z) (len : nat), c = IndexOutOfRange index len ∧ index < 0.
Proof.
  revert j. induction branch as [|p rest IH]; intros j; [done|].
  rewrite CheckGet_step.
  destruct p as [key|index|], (data j) as [| | | |a|m]; simpl; try done.
  - destruct (m !! key); [apply IH | done].
  - destruct (Z.ltb_spec index 0) as [Hneg|_].
    + intros [= <-]. eauto.
    + destruct (a !! Z.to_nat index); [apply IH | done].
Qed.

(** A walk along keys never panics. *)
Lemma CheckGet_keys_returns (p : list string) (j : Json) :
  returns (CheckGet (PKey <$> p) j).
Proof.
  revert j. induction p as [|k p IH]; intros j; [done|].
  rewrite fmap_cons, CheckGet_step.
  destruct (data j); try done. destruct (m !! k); [apply IH|done].
Qed.

(** ** Navigation: [CheckGet] and [Get] *)

(** C1 (code at the failing input). The walk is meant to end as not found
    on every step that does not select a key of an object or an element of
    an array. On the document [{"a": [1, 2]}] the branch ["a", -1] reaches
    the array with the out-of-bounds index -1, and the walk does not end as
    not found: [getIndex] only tests [len(a) > index], and the index
    expression panics. So does every walk that comes to an array under a key
    with a negative index as its next step. *)
Theorem CheckGet_negative_index_faults :
  CheckGet [PKey "a"; PIndex (-1)] doc_a12 = Panic (IndexOutOfRange (-1) 2) ∧
  ∀ (m : gmap string value) (key : string) (a : list value) (n : positive)
    (rest : list step),
    CheckGet (PKey key :: PIndex (Z.neg n) :: rest)
             (mkJson (VMap (<[key := VArray a]> m)))
      = Panic (IndexOutOfRange (Z.neg n) (length a)).
Proof.
  split; [reflexivity|]. intros m key a n rest.
  rewrite CheckGet_step. simpl. rewrite lookup_insert_eq.
  by rewrite CheckGet_step.
Qed.

(** C3 (code at the failing inputs). A lookup step with an out-of-bounds
    index is meant to be total and to report not found. For every array and
    every negative index, [getIndex] panics instead, and so does a walk of
    [CheckGet] that starts with that step. *)
Theorem getIndex_negative_faults (a : list value) (n : positive)
    (rest : list step) :
  getIndex (Z.neg n) (mkJson (VArray a))
    = Panic (IndexOutOfRange (Z.neg n) (length a)) ∧
  CheckGet (PIndex (Z.neg n) :: rest) (mkJson (VArray a))
    = Panic (IndexOutOfRange (Z.neg n) (length a)).
Proof.
  assert (getIndex (Z.neg n) (mkJson (VArray a))
            = Panic (IndexOutOfRange (Z.neg n) (length a))) as H
    by (apply getIndex_negative; lia).
  split; [done|]. unfold CheckGet. simpl. by rewrite H.
Qed.

(** C9. With an empty branch [CheckGet] makes no step and returns the
    wrapper it was called on with the flag set, and [Get] returns that
    wrapper, whatever it holds. *)
Theorem CheckGet_empty_branch (j : Json) :
  CheckGet [] j = Ret (Some j, true) ∧ Get [] j = Ret (Some j).
Proof. split; reflexivity. Qed.

(** C6. [Get] is [CheckGet] without the flag: where [CheckGet] returns a
    pointer with the flag set, [Get] returns that pointer; where the flag is
    not set, [Get] returns the sentinel [&Json{nil}]; a panic of the walk is
    a panic of [Get]. A found JSON null and a failed walk give the same
    result of [Get], and differ in the flag of [CheckGet]. *)
Theorem Get_is_CheckGet_without_flag (branch : list step) (j : Json) :
  (∀ (jin : ptr) (ok : bool),
     CheckGet branch j = Ret (jin, ok) →
     Get branch j = Ret (if ok then jin else Some sentinel)) ∧
  (∀ c : panic_cause,
     CheckGet branch j = Panic c → Get branch j = Panic c) ∧
  (∀ (branch' : list step) (j' : Json),
     CheckGet branch j = Ret (Some (mkJson VNil), true) →
     CheckGet branch' j' = Ret (None, false) →
     Get branch j = Get branch' j').
Proof.
  unfold Get. split; [|split].
  - by intros jin [] ->.
  - by intros c ->.
  - by intros branch' j' -> ->.
Qed.

(** The two cases that C6 tells apart, on [{"n": null}]: the key ["n"]
    holds a null and is found, the key ["zz"] is missing, and [Get] returns
    equal wrappers of nil for both. *)
Lemma Get_is_CheckGet_without_flag_witness :
  CheckGet [PKey "n"] doc_null = Ret (Some (mkJson VNil), true) ∧
  CheckGet [PKey "zz"] doc_null = Ret (None, false) ∧
  Get [PKey "n"] doc_null = Get [PKey "zz"] doc_null.
Proof.
  split; [reflexivity|]. split; [reflexivity|].
  destruct (Get_is_CheckGet_without_flag [PKey "n"] doc_null) as (_ & _ & H).
  apply (H [PKey "zz"] doc_null); reflexivity.
Defined.

(** When [Get] returns, what it returns is never nil. When the walk reports
    not found, [Get] returns the sentinel, a wrapper of nil; and on the
    sentinel every walk of one step or more returns, reports not found, and
    makes [Get] return the sentinel again. This says nothing of a call of
    [Get] that does not return. *)
Theorem Get_sentinel_absorbing :
  (∀ (branch : list step) (j : Json) (r : ptr),
     Get branch j = Ret r → is_Some r) ∧
  (∀ (branch : list step) (j : Json),
     CheckGet branch j = Ret (None, false) →
     Get branch j = Ret (Some sentinel)) ∧
  data sentinel = VNil ∧
  (∀ (p : step) (rest : list step),
     CheckGet (p :: rest) sentinel = Ret (None, false) ∧
     Get (p :: rest) sentinel = Ret (Some sentinel)).
Proof.
  split; [|split; [|split; [done|]]].
  - intros branch j r. unfold Get.
    destruct (CheckGet branch j) as [[jin ok]|c] eqn:Hwalk; [|done].
    apply CheckGet_flag in Hwalk.
    destruct ok; simpl; intros [= <-]; [done | by eexists].
  - intros branch j H. unfold Get. by rewrite H.
  - intros p rest.
    assert (CheckGet (p :: rest) sentinel = Ret (None, false)) as H
      by (rewrite CheckGet_step; by destruct p).
    split; [done|]. unfold Get. by rewrite H.
Qed.

(** A lookup that reports not found, and a chain of further steps of every
    kind on its result. *)
Lemma Get_sentinel_absorbing_witness :
  is_Some (Some sentinel) ∧
  Get [PKey "zz"] doc_null = Ret (Some sentinel) ∧
  Get [PIndex (-1); PKey "k"; POther] sentinel = Ret (Some sentinel).
Proof.
  destruct Get_sentinel_absorbing as (Hvalid & Hfail & _ & Habs).
  split; [|split].
  - by apply (Hvalid [PKey "zz"] doc_null).
  - by apply Hfail.
  - apply Habs.
Defined.

(** C10 (code at the failing input). After a failed lookup [Get] is meant
    to return a valid wrapper of nil, never to fault. The index -1 is out of
    the bounds of the array [[1, 2]], so the lookup fails; and [Get] does not
    return the sentinel, it panics in the index expression of [getIndex].
    So it does on every array, for every negative index and whatever
    follows it in the branch. *)
Theorem Get_failed_lookup_faults :
  Get [PIndex (-1)] (mkJson array_12) = Panic (IndexOutOfRange (-1) 2) ∧
  ∀ (a : list value) (n : positive) (rest : list step),
    Get (PIndex (Z.neg n) :: rest) (mkJson (VArray a))
      = Panic (IndexOutOfRange (Z.neg n) (length a)).
Proof.
  split; [reflexivity|]. intros a n rest. unfold Get.
  rewrite CheckGet_step. simpl.
  by destruct (Z.ltb_spec (Z.neg n) 0); [|lia].
Qed.

(** ** Mutation: [Set], [Del] and [SetPath] *)

Lemma Json_eta (j : Json) : mkJson (data j) = j.
Proof. by destruct j. Qed.

(** The loop of [SetPath] with two keys or more left: the map under the
    first key, or a fresh one, takes the rest of the branch. *)
Lemma setBranch_cons (b : string) (rest : list string) (val : value)
    (curr : gmap string value) :
  rest ≠ [] →
  setBranch (b :: rest) val curr =
    <[b := VMap (setBranch rest val (from_option asObject ∅ (curr !! b)))]> curr.
Proof.
  intros Hrest. destruct rest as [|b' rest]; [done|].
  change (setBranch (b :: b' :: rest) val curr) with
    (match curr !! b with
     | None => <[b := VMap (setBranch (b' :: rest) val ∅)]> curr
     | Some (VMap n) => <[b := VMap (setBranch (b' :: rest) val n)]> curr
     | Some _ => <[b := VMap (setBranch (b' :: rest) val ∅)]> curr
     end).
  by destruct (curr !! b) as [[]|].
Qed.

(** Whatever follows the first key, the loop writes that key of [curr]
    and no other. *)
Lemma setBranch_head (b : string) (rest : list string) (val : value)
    (curr : gmap string value) :
  ∃ x, setBranch (b :: rest) val curr = <[b := x]> curr.
Proof.
  destruct rest as [|b' rest]; [by exists val|].
  rewrite setBranch_cons by done. eauto.
Qed.

(** [SetPath] on a branch of two keys or more is [SetPath] with the rest
    of the branch on the child under the first key, stored back under that
    key; the root and the child are taken as empty objects when they are
    not objects. *)
Lemma SetPath_cons (b : string) (rest : list string) (val : value) (j : Json) :
  rest ≠ [] →
  SetPath (b :: rest) val j =
    Set_ b
      (data (SetPath rest val
               (mkJson (VMap (from_option asObject ∅ (asObject (data j) !! b))))))
      (mkJson (VMap (asObject (data j)))).
Proof.
  intros Hrest. unfold SetPath at 1, Set_. simpl CheckMap.
  fold (asObject (data j)). rewrite setBranch_cons by done.
  by destruct rest.
Qed.

Lemma objectAt_hollow (p : list string) (j : Json) :
  asObject (data j) = ∅ → objectAt p j = ∅.
Proof.
  intros Hj. unfold objectAt. destruct p as [|b p]; [done|].
  rewrite fmap_cons, CheckGet_step. destruct (data j); try done.
  simpl in Hj. subst m. by rewrite lookup_empty.
Qed.

Lemma objectAt_asObject (p : list string) (v : value) :
  objectAt p (mkJson (VMap (asObject v))) = objectAt p (mkJson v).
Proof.
  destruct v; try done; by rewrite !objectAt_hollow.
Qed.

Lemma objectAt_cons (b : string) (p : list string) (j : Json) :
  objectAt (b :: p) j =
    objectAt p (mkJson (VMap (from_option asObject ∅ (asObject (data j) !! b)))).
Proof.
  unfold objectAt at 1. rewrite fmap_cons, CheckGet_step.
  destruct (data j) as [| | | | |m]; simpl asObject;
    try (rewrite lookup_empty; simpl; by rewrite objectAt_hollow).
  destruct (m !! b) as [v|]; simpl.
  - by rewrite objectAt_asObject.
  - by rewrite objectAt_hollow.
Qed.

(** After [SetPath], the walk along the whole branch finds the value. *)
Lemma SetPath_CheckGet (p : list string) (k : string) (val : value) (j : Json) :
  CheckGet (PKey <$> (p ++ [k])) (SetPath (p ++ [k]) val j)
    = Ret (Some (mkJson val), true).
Proof.
  revert j. induction p as [|b p IH]; intros j.
  - simpl app. rewrite fmap_cons, CheckGet_step. simpl.
    by rewrite lookup_insert_eq.
  - rewrite <- app_comm_cons, fmap_cons, SetPath_cons by (by destruct p).
    rewrite CheckGet_step. simpl. rewrite lookup_insert_eq, Json_eta. apply IH.
Qed.

(** After [SetPath], the walk along a proper prefix of the branch finds an
    object: the one that was there (an empty one when there was none) with
    the next key of the branch written. *)
Lemma SetPath_prefix (p : list string) (k : string) (q : list string)
    (val : value) (j : Json) :
  ∃ x, CheckGet (PKey <$> p) (SetPath (p ++ k :: q) val j)
         = Ret (Some (mkJson (VMap (<[k := x]> (objectAt p j)))), true).
Proof.
  revert j. induction p as [|b p IH]; intros j.
  - destruct (setBranch_head k q val (asObject (data j))) as [x Hx].
    exists x. simpl. unfold objectAt. simpl. by rewrite <- Hx.
  - rewrite <- app_comm_cons, fmap_cons, SetPath_cons by (by destruct p).
    rewrite CheckGet_step. simpl. rewrite lookup_insert_eq, Json_eta.
    rewrite objectAt_cons. apply IH.
Qed.

Lemma objectAt_none (p : list string) (j : Json) :
  (∀ m, CheckGet (PKey <$> p) j ≠ Ret (Some (mkJson (VMap m)), true)) →
  objectAt p j = ∅.
Proof.
  intros H. unfold objectAt.
  destruct (CheckGet (PKey <$> p) j) as [[[[d]|] []]|]; try done.
  destruct d; try done. by destruct (H m).
Qed.

(** C2. [SetPath] with the empty branch replaces the wrapped value by
    [val], whatever it was. With a branch of one key or more, written
    [p ++ [k]]: the walk along the branch then finds [val]; and along every
    proper prefix of the branch (the empty one is the root) it finds an
    object, which is the object that was there with the next key written,
    and which holds the next key only when the walk did not find an object
    there before (a missing key, an array or a scalar in the way, a root
    that is not an object). *)
Theorem SetPath_spec (val : value) (j : Json) :
  SetPath [] val j = mkJson val ∧
  (∀ (p : list string) (k : string),
     CheckGet (PKey <$> (p ++ [k])) (SetPath (p ++ [k]) val j)
       = Ret (Some (mkJson val), true) ∧
     Get (PKey <$> (p ++ [k])) (SetPath (p ++ [k]) val j)
       = Ret (Some (mkJson val))) ∧
  (∀ (p : list string) (k : string) (q : list string),
     ∃ x : value,
       CheckGet (PKey <$> p) (SetPath (p ++ k :: q) val j)
         = Ret (Some (mkJson (VMap (<[k := x]> (objectAt p j)))), true) ∧
       ((∀ m, CheckGet (PKey <$> p) j ≠ Ret (Some (mkJson (VMap m)), true)) →
        CheckGet (PKey <$> p) (SetPath (p ++ k :: q) val j)
          = Ret (Some (mkJson (VMap {[k := x]})), true))).
Proof.
  split; [done|]. split.
  - intros p k. unfold Get. by rewrite SetPath_CheckGet.
  - intros p k q. destruct (SetPath_prefix p k q val j) as [x Hx].
    exists x. split; [done|]. intros Hnone.
    by rewrite Hx, objectAt_none, insert_empty.
Qed.

(** C2 on the documents of the spec: three levels created in an empty
    object, and an array in the way replaced by an object. *)
Lemma SetPath_spec_witness :
  Get [PKey "x"; PKey "y"; PKey "z"] (SetPath ["x"; "y"; "z"] (VBool true) New)
    = Ret (Some (mkJson (VBool true))) ∧
  ∃ x, CheckGet [PKey "x"] (SetPath ["x"; "y"] (VBool true) doc_x12)
         = Ret (Some (mkJson (VMap {[ "y" := x ]})), true).
Proof.
  split.
  - apply (proj2 (proj1 (proj2 (SetPath_spec (VBool true) New)) ["x"; "y"] "z")).
  - destruct (proj2 (proj2 (SetPath_spec (VBool true) doc_x12)) ["x"] "y" [])
      as (x & _ & Hx).
    exists x. apply Hx. intros m. vm_compute. discriminate.
Defined.

Example SetPath_creates :
  SetPath ["x"; "y"; "z"] (VBool true) New
    = mkJson (VMap {[ "x" := VMap {[ "y" := VMap {[ "z" := VBool true ]} ]} ]}).
Proof. reflexivity. Qed.

Example SetPath_overwrites :
  SetPath ["x"; "y"] (VBool true) doc_x12
    = mkJson (VMap {[ "x" := VMap {[ "y" := VBool true ]} ]}).
Proof. reflexivity. Qed.

(** C5. On a wrapper that does not hold an object, [Set] and [Del] return
    without a change to it (and they have no result in which an error could
    be passed); [Del] of a key that an object does not have leaves the
    object as it is. *)
Theorem Set_Del_noop (key : string) (val : value) (j : Json) :
  (isObject j = false → Set_ key val j = j ∧ Del key j = j) ∧
  (∀ m : gmap string value,
     data j = VMap m → m !! key = None → Del key j = j).
Proof.
  split.
  - destruct j as [[]]; done.
  - intros m Hj Hkey. destruct j as [d]. simpl in Hj. subst d.
    unfold Del. simpl. by rewrite delete_id.
Qed.

(** C5 on a document whose root is an array, and on [{"n": null}] without
    the key ["k"]. *)
Lemma Set_Del_noop_witness :
  (Set_ "k" (VBool true) (mkJson array_12) = mkJson array_12 ∧
   Del "k" (mkJson array_12) = mkJson array_12) ∧
  Del "k" doc_null = doc_null.
Proof.
  split.
  - by apply (Set_Del_noop "k" (VBool true) (mkJson array_12)).
  - by apply (proj2 (Set_Del_noop "k" VNil doc_null) {[ "n" := VNil ]}).
Defined.

(** ** Defaulted accessors *)

Lemma defaulted_defaults_to {A B : Type} (fn : string) (zero : B)
    (ok : A → B) (check : Json → result A) :
  defaults_to (defaulted fn zero ok check) check ok zero.
Proof.
  intros j. unfold defaulted. split; [|intros d]; simpl; by destruct (check j).
Qed.

Lemma defaulted_aborts_on_misuse {A B : Type} (fn : string) (zero : B)
    (ok : A → B) (check : Json → result A) :
  aborts_on_misuse fn (defaulted fn zero ok check).
Proof. intros d1 d2 ds j. reflexivity. Qed.

(** C4. Each of the ten defaulted accessors, called with no argument or
    with one, returns the checked value when its [Check*] accessor
    succeeds; otherwise it returns the argument when there is one and the
    zero value of its type when there is none: the empty string, 0, false,
    the nil slice or the nil map. For the four numeric accessors this holds
    whatever their [Check*] accessors are. *)
Theorem accessors_default :
  defaults_to String CheckString id "" ∧
  (∀ CheckInt, defaults_to (Int CheckInt) CheckInt id 0) ∧
  (∀ CheckInt64, defaults_to (Int64 CheckInt64) CheckInt64 id 0) ∧
  (∀ CheckUint64, defaults_to (Uint64 CheckUint64) CheckUint64 id 0) ∧
  (∀ CheckFloat64,
     defaults_to (Float64 CheckFloat64) CheckFloat64 id (S754_zero false)) ∧
  defaults_to Bool CheckBool id false ∧
  defaults_to Array CheckArray Some None ∧
  defaults_to Map CheckMap Some None ∧
  defaults_to JsonArray CheckJsonArray Some None ∧
  defaults_to JsonMap CheckJsonMap Some None.
Proof. repeat split; intros; apply defaulted_defaults_to. Qed.

(** The defaulting example of the spec: the key ["missing"] is not in the
    document, so [String] returns the default, or the empty string. *)
Example String_missing :
  (p ←! Get [PKey "missing"] doc_null; jin ←! deref p; String ["fallback"] jin)
    = Ret "fallback" ∧
  (p ←! Get [PKey "missing"] doc_null; jin ←! deref p; String [] jin) = Ret "".
Proof. split; reflexivity. Qed.

(** C8. Each of the ten defaulted accessors, called with two arguments or
    more, panics in [log.Panicf] with the number of arguments, whatever it
    is called on and whether or not its [Check*] accessor would succeed. *)
Theorem accessors_abort_on_misuse :
  aborts_on_misuse "String" String ∧
  (∀ CheckInt, aborts_on_misuse "Int" (Int CheckInt)) ∧
  (∀ CheckInt64, aborts_on_misuse "Int64" (Int64 CheckInt64)) ∧
  (∀ CheckUint64, aborts_on_misuse "Uint64" (Uint64 CheckUint64)) ∧
  (∀ CheckFloat64, aborts_on_misuse "Float64" (Float64 CheckFloat64)) ∧
  aborts_on_misuse "Bool" Bool ∧
  aborts_on_misuse "Array" Array ∧
  aborts_on_misuse "Map" Map ∧
  aborts_on_misuse "JsonArray" JsonArray ∧
  aborts_on_misuse "JsonMap" JsonMap.
Proof. repeat split; intros; apply defaulted_aborts_on_misuse. Qed.

Example String_misuse :
  String ["a"; "b"] (mkJson (VString "s")) = Panic (TooManyArguments "String" 2).
Proof. reflexivity. Qed.

(** ** Numeric coercions *)

Lemma Qdiv_integral (a z : Z) (d : positive) :
  (inject_Z a * / inject_Z (Z.pos d) == inject_Z z)%Q ↔ a = z * Z.pos d.
Proof. unfold Qeq, Qmult, Qinv, inject_Z; simpl. lia. Qed.

Lemma exact_division (a d z : Z) :
  0 < d →
  (if a mod d =? 0 then Some (a / d) else None) = Some z ↔ a = z * d.
Proof.
  intros Hd. pose proof (Z.div_mod a d ltac:(lia)) as Hdm.
  destruct (Z.eqb_spec (a mod d) 0) as [H0|H0]; split.
  - intros [= <-]. lia.
  - intros ->. f_equal. by rewrite Z.div_mul by lia.
  - done.
  - intros ->. by rewrite Z.mod_mul in H0 by lia.
Qed.

(** [integral] finds the integer exactly when the float has an integer
    value. *)
Lemma integral_value (f : spec_float) (z : Z) :
  SpecModel.integral f = Some z ↔
  ∃ q : Q, float_value f = Some q ∧ (q == inject_Z z)%Q.
Proof.
  destruct f as [s|s| |s m e]; simpl.
  - split.
    + intros [= <-]. by exists (inject_Z 0).
    + intros (q & [= <-] & Hq). f_equal. by apply inject_Z_injective.
  - split; [done|]. by intros (q & ? & _).
  - split; [done|]. by intros (q & ? & _).
  - set (zm := if s then Z.neg m else Z.pos m).
    destruct (Z.leb_spec 0 e) as [He|He].
    + split.
      * intros [= <-]. eexists; split; [done|].
        by rewrite inject_Z_mult, Zpower_Qpower.
      * intros (q & [= <-] & Hq). f_equal.
        apply inject_Z_injective.
        by rewrite inject_Z_mult, Zpower_Qpower.
    + destruct e as [|e|e]; try lia. change (- Z.neg e) with (Z.pos e).
      assert (0 < 2 ^ Z.pos e) as Hpow by (apply Z.pow_pos_nonneg; lia).
      destruct (2 ^ Z.pos e) as [|d|d] eqn:Hd; try lia.
      rewrite exact_division by lia.
      assert (Qpower (inject_Z 2) (Z.neg e) == / inject_Z (Z.pos d))%Q as Hq2.
      { rewrite <- Hd, Zpower_Qpower by lia. reflexivity. }
      rewrite <- Qdiv_integral. split.
      * intros Hz. eexists; split; [done|]. by rewrite Hq2.
      * intros (q & [= <-] & Hq). by rewrite <- Hq2.
Qed.

Lemma checkIntegral_lossless (lo hi : Z) (f : spec_float) (z : Z) :
  SpecModel.checkIntegral lo hi (mkJson (VNum f)) = Ok z ↔ lossless lo hi f z.
Proof.
  unfold lossless. rewrite <- integral_value.
  unfold SpecModel.checkIntegral. simpl.
  destruct (SpecModel.integral f) as [z'|]; [|by split; [|intros [? _]]].
  destruct (Z.leb_spec lo z'), (Z.leb_spec z' hi); simpl; split;
    try done; try (intros [= <-]; split; [done|lia]);
    try (intros [[= <-] ?]; done || lia).
Qed.

Lemma checkIntegral_error (lo hi : Z) (j : Json) :
  (∀ z, SpecModel.checkIntegral lo hi j ≠ Ok z) →
  SpecModel.checkIntegral lo hi j = SpecModel.TypeMismatch.
Proof.
  intros Hno. unfold SpecModel.checkIntegral in *. destruct (data j); try done.
  destruct (SpecModel.integral f) as [z|]; [|done].
  destruct ((lo <=? z) && (z <=? hi)); [|done]. by destruct (Hno z).
Qed.

(** C7 (against the numeric coercions as the spec describes them).
    [CheckInt], [CheckInt64] and [CheckUint64] succeed with [z] on a number
    exactly when the number is finite, its value is the integer [z], and [z]
    is in the range of the target type; when they do not succeed, they fail
    with the TypeMismatch error, as they do on the infinities and on NaN.
    The number 3.0 gives 3 as an Int, 3.5 fails as an Int and gives 3.5 as a
    Float64. *)
Theorem CheckInt_lossless :
  (∀ (f : spec_float) (z : Z),
     (SpecModel.CheckInt (mkJson (VNum f)) = Ok z
        ↔ lossless minInt64 maxInt64 f z) ∧
     (SpecModel.CheckInt64 (mkJson (VNum f)) = Ok z
        ↔ lossless minInt64 maxInt64 f z) ∧
     (SpecModel.CheckUint64 (mkJson (VNum f)) = Ok z
        ↔ lossless 0 maxUint64 f z)) ∧
  (∀ j : Json,
     ((∀ z, SpecModel.CheckInt j ≠ Ok z) →
      SpecModel.CheckInt j = SpecModel.TypeMismatch) ∧
     ((∀ z, SpecModel.CheckInt64 j ≠ Ok z) →
      SpecModel.CheckInt64 j = SpecModel.TypeMismatch) ∧
     ((∀ z, SpecModel.CheckUint64 j ≠ Ok z) →
      SpecModel.CheckUint64 j = SpecModel.TypeMismatch)) ∧
  (∀ s : bool,
     SpecModel.CheckInt (mkJson (VNum (S754_infinity s)))
       = SpecModel.TypeMismatch ∧
     SpecModel.CheckInt (mkJson (VNum S754_nan)) = SpecModel.TypeMismatch) ∧
  SpecModel.CheckInt (mkJson (VNum three)) = Ok 3 ∧
  SpecModel.CheckInt (mkJson (VNum three_and_half)) = SpecModel.TypeMismatch ∧
  SpecModel.CheckFloat64 (mkJson (VNum three_and_half)) = Ok three_and_half ∧
  Int SpecModel.CheckInt [] (mkJson (VNum three)) = Ret 3 ∧
  Float64 SpecModel.CheckFloat64 [] (mkJson (VNum three_and_half))
    = Ret three_and_half.
Proof.
  split; [|split; [|done]].
  - intros f z. split; [|split]; apply checkIntegral_lossless.
  - intros j. split; [|split]; apply checkIntegral_error.
Qed.

(** C7 on 3.0, on 3.5 and on 2^64, which is an integer beyond the range of
    each of the three types. *)
Lemma CheckInt_lossless_witness :
  lossless minInt64 maxInt64 three 3 ∧
  SpecModel.CheckInt (mkJson (VNum three_and_half)) = SpecModel.TypeMismatch ∧
  SpecModel.CheckUint64 (mkJson (VNum (S754_finite false 1 64)))
    = SpecModel.TypeMismatch.
Proof.
  destruct CheckInt_lossless as (Hiff & Herr & _). split; [|split].
  - by apply (Hiff three 3).
  - apply (Herr (mkJson (VNum three_and_half))).
    intros z. vm_compute. discriminate.
  - apply (Herr (mkJson (VNum (S754_finite false 1 64)))).
    intros z. vm_compute. discriminate.
Defined.

(** * Further properties of the code *)

(** ** Walks: reference semantics, panics, composition *)

Lemma CheckGet_app (p q : list step) (j : Json) :
  CheckGet (p ++ q) j =
    (r ←! CheckGet p j;
     match r with
     | (Some jin, true) => CheckGet q jin
     | _ => Ret (None, false)
     end).
Proof.
  revert j. induction p as [|s p IH]; intros j; [done|].
  rewrite <- app_comm_cons, !CheckGet_step.
  destruct s as [key|index|], (data j) as [| | | |a|m]; simpl; try done.
  - destruct (m !! key); [apply IH | done].
  - destruct (index <? 0); [done|].
    destruct (a !! Z.to_nat index); [apply IH | done].
Qed.

Lemma Get_sentinel (q : list step) : Get q sentinel = Ret (Some sentinel).
Proof.
  unfold Get. destruct q as [|p q]; [done|].
  rewrite CheckGet_step. by destruct p.
Qed.

(** X1. On a branch without a negative index, [CheckGet] returns, and it
    returns what the branch names in the wrapped value by the rules of the
    walk: that sub-value in a wrapper with the flag set, or nil without the
    flag when the branch names nothing. *)
Theorem CheckGet_refines_resolve (branch : list step) (j : Json) :
  nonnegative_indices branch →
  CheckGet branch j =
    Ret (match spec_resolve branch (data j) with
         | Some v => (Some (mkJson v), true)
         | None => (None, false)
         end).
Proof.
  intros Hnn. revert j. induction Hnn as [|p rest Hp _ IH]; intros j.
  - by destruct j.
  - rewrite CheckGet_step.
    destruct p as [key|index|], (data j) as [| | | |a|m]; simpl; try done.
    + destruct (m !! key) as [v|]; [apply IH | done].
    + destruct (Z.ltb_spec index 0); [lia|].
      destruct (Z.leb_spec 0 index); [|lia].
      destruct (a !! Z.to_nat index) as [v|]; [apply IH | done].
Qed.

(** X1 on the document and the branches of the spec. *)
Lemma CheckGet_refines_resolve_witness :
  CheckGet [PKey "a"; PKey "b"; PIndex 2; PKey "c"] doc_nested
    = Ret (Some (mkJson (VString "x")), true) ∧
  CheckGet [PKey "a"; PKey "b"; PIndex 5] doc_nested = Ret (None, false) ∧
  CheckGet [PKey "a"; PKey "b"; PKey "x"] doc_nested = Ret (None, false).
Proof.
  split; [|split].
  - apply (CheckGet_refines_resolve
             [PKey "a"; PKey "b"; PIndex 2; PKey "c"] doc_nested).
    repeat constructor; lia.
  - apply (CheckGet_refines_resolve [PKey "a"; PKey "b"; PIndex 5] doc_nested).
    repeat constructor; lia.
  - apply (CheckGet_refines_resolve [PKey "a"; PKey "b"; PKey "x"] doc_nested).
    repeat constructor.
Defined.

(** X2. When [Get] panics, the branch holds a negative index and the panic
    is the index expression out of range at that index: [Get] has no other
    way to fail, and none at all on a branch of keys and indices from 0
    up. *)
Theorem Get_panics_on_negative_index_only (branch : list step) (j : Json)
    (c : panic_cause) :
  Get branch j = Panic c →
  ∃ (index : Z) (len : nat),
    PIndex index ∈ branch ∧ index < 0 ∧ c = IndexOutOfRange index len.
Proof.
  unfold Get. destruct (CheckGet branch j) as [[r []]|c'] eqn:Hwalk; try done.
  intros [= <-]. revert j Hwalk.
  induction branch as [|p rest IH]; intros j; [done|].
  rewrite CheckGet_step.
  destruct p as [key|index|], (data j) as [| | | |a|m]; simpl; try done.
  - destruct (m !! key) as [v|]; [|done]. intros Hwalk.
    destruct (IH _ Hwalk) as (i & n & Hin & Hneg & ->).
    exists i, n. split; [by right | done].
  - destruct (Z.ltb_spec index 0) as [Hneg|_].
    + intros [= <-]. exists index, (length a). split; [by left | done].
    + destruct (a !! Z.to_nat index) as [v|]; [|done]. intros Hwalk.
      destruct (IH _ Hwalk) as (i & n & Hin & Hneg & ->).
      exists i, n. split; [by right | done].
Qed.

(** X2 on the array [[1, 2]] and the index -1. *)
Lemma Get_panics_on_negative_index_only_witness :
  ∃ (index : Z) (len : nat),
    PIndex index ∈ [PIndex (-1)] ∧ index < 0 ∧
    IndexOutOfRange (-1) 2 = IndexOutOfRange index len.
Proof.
  apply (Get_panics_on_negative_index_only [PIndex (-1)] (mkJson array_12)).
  reflexivity.
Defined.

(** X3. Chained calls compose: [Get] with the branch [q] on the result of
    [Get] with the branch [p] is [Get] with the branch [p ++ q], in the
    wrapper returned and in the panics, whether or not the walk along [p]
    finds anything. *)
Theorem Get_chain (p q : list step) (j : Json) :
  (r ←! Get p j; jin ←! deref r; Get q jin) = Get (p ++ q) j.
Proof.
  unfold Get at 1 3. rewrite CheckGet_app.
  destruct (CheckGet p j) as [[r ok]|c] eqn:Hwalk; [|done].
  apply CheckGet_flag in Hwalk. destruct ok; simpl.
  - by destruct Hwalk as [jin ->].
  - subst r. apply Get_sentinel.
Qed.

(** X4. A walk that finds something has found something at every prefix:
    when [CheckGet] sets the flag for [p ++ q], it sets the flag for [p],
    and the result is that of the walk along [q] from the wrapper found
    there. *)
Theorem CheckGet_found_prefix (p q : list step) (j : Json) (r : ptr) :
  CheckGet (p ++ q) j = Ret (r, true) →
  ∃ jin : Json,
    CheckGet p j = Ret (Some jin, true) ∧ CheckGet q jin = Ret (r, true).
Proof.
  rewrite CheckGet_app.
  destruct (CheckGet p j) as [[[jin|] []]|c]; simpl; try done. eauto.
Qed.

(** X4 on the document of the spec, cut after ["a"; "b"]. *)
Lemma CheckGet_found_prefix_witness :
  ∃ jin : Json,
    CheckGet [PKey "a"; PKey "b"] doc_nested = Ret (Some jin, true) ∧
    CheckGet [PIndex 2; PKey "c"] jin
      = Ret (Some (mkJson (VString "x")), true).
Proof.
  apply (CheckGet_found_prefix [PKey "a"; PKey "b"] [PIndex 2; PKey "c"]
           doc_nested).
  reflexivity.
Defined.

(** ** [Set] and [Del] read back *)

(** X5. After [Set], the key is found with the value that was set when the
    wrapper holds an object, and it is not found when it does not (nothing
    was written); every other key is found or not as before, with the
    value it had. *)
Theorem Set_then_getKey (key : string) (val : value) (j : Json) :
  getKey key (Set_ key val j)
    = (if isObject j then (Some (mkJson val), true) else (None, false)) ∧
  ∀ key' : string, key' ≠ key → getKey key' (Set_ key val j) = getKey key' j.
Proof.
  destruct j as [d]. split.
  - destruct d; try done. unfold Set_, getKey. simpl.
    by rewrite lookup_insert_eq.
  - intros key' Hne. destruct d; try done. unfold Set_, getKey. simpl.
    by rewrite lookup_insert_ne.
Qed.

(** X5 on a fresh document. *)
Lemma Set_then_getKey_witness :
  getKey "k" (Set_ "k" VNil New) = (Some (mkJson VNil), true) ∧
  getKey "n" (Set_ "k" (VBool true) doc_null) = getKey "n" doc_null.
Proof.
  split.
  - apply (Set_then_getKey "k" VNil New).
  - by apply (Set_then_getKey "k" (VBool true) doc_null).
Defined.

(** X6. After [Del], the key is not found, on every wrapper; every other
    key is found or not as before, with the value it had. *)
Theorem Del_then_getKey (key : string) (j : Json) :
  getKey key (Del key j) = (None, false) ∧
  ∀ key' : string, key' ≠ key → getKey key' (Del key j) = getKey key' j.
Proof.
  destruct j as [d]. split.
  - destruct d; try done. unfold Del, getKey. simpl.
    by rewrite lookup_delete_eq.
  - intros key' Hne. destruct d; try done. unfold Del, getKey. simpl.
    by rewrite lookup_delete_ne.
Qed.

(** X6 on [{"n": null}]. *)
Lemma Del_then_getKey_witness :
  getKey "n" (Del "n" doc_null) = (None, false) ∧
  getKey "n" (Del "k" doc_null) = getKey "n" doc_null.
Proof.
  split.
  - apply (Del_then_getKey "n" doc_null).
  - by apply (Del_then_getKey "k" doc_null).
Defined.

(** X7. [Set] twice on a key keeps the second value; [Set] on two keys
    that differ gives the same document in either order; [Del] after [Set]
    on a key is [Del] alone, and [Del] twice is [Del] once. *)
Theorem Set_Del_compose (key : string) (val val' : value) (j : Json) :
  Set_ key val' (Set_ key val j) = Set_ key val' j ∧
  Del key (Set_ key val j) = Del key j ∧
  Del key (Del key j) = Del key j ∧
  ∀ key' : string,
    key' ≠ key →
    Set_ key' val' (Set_ key val j) = Set_ key val (Set_ key' val' j).
Proof.
  destruct j as [d]. destruct d; try done. unfold Set_, Del. simpl.
  split; [|split; [|split]].
  - by rewrite insert_insert_eq.
  - by rewrite delete_insert_eq.
  - by rewrite delete_delete_eq.
  - intros key' Hne. by rewrite insert_insert_ne.
Qed.

(** X7 for the keys ["a"] and ["b"] of a fresh document. *)
Lemma Set_Del_compose_witness :
  Set_ "b" VNil (Set_ "a" (VBool true) New)
    = Set_ "a" (VBool true) (Set_ "b" VNil New).
Proof.
  by apply (Set_Del_compose "a" (VBool true) VNil New).
Defined.

(** X8. [Set] then [Del] of a key that the wrapper did not have gives the
    wrapper back: on an object without the key the two calls undo each
    other, and on a wrapper of anything else neither does anything. *)
Theorem Set_then_Del_undoes (key : string) (val : value) (j : Json) :
  getKey key j = (None, false) → Del key (Set_ key val j) = j.
Proof.
  destruct j as [d]. destruct d; try done. unfold getKey, Set_, Del. simpl.
  destruct (m !! key) eqn:Hkey; [done|]. intros _.
  by rewrite delete_insert_id.
Qed.

(** X8 on [{"n": null}] and the key ["k"]. *)
Lemma Set_then_Del_undoes_witness :
  Del "k" (Set_ "k" (VBool true) doc_null) = doc_null.
Proof. by apply (Set_then_Del_undoes "k" (VBool true) doc_null). Defined.

(** ** [SetPath]: what it leaves alone, and how calls compose *)

Lemma setBranch_step (b : string) (rest : list string) (val : value)
    (curr : gmap string value) :
  setBranch (b :: rest) val curr =
    <[b := match rest with
           | [] => val
           | _ :: _ =>
               VMap (setBranch rest val (from_option asObject ∅ (curr !! b)))
           end]> curr.
Proof. destruct rest; [done|]. by apply setBranch_cons. Qed.

Lemma SetPath_nonempty (b : string) (rest : list string) (val : value)
    (j : Json) :
  SetPath (b :: rest) val j
    = mkJson (VMap (setBranch (b :: rest) val (asObject (data j)))).
Proof. reflexivity. Qed.

(** A walk that starts with a key does not tell a value that is not an
    object from an empty object. *)
Lemma CheckGet_key_asObject (key : string) (rest : list step) (v : value) :
  CheckGet (PKey key :: rest) (mkJson (VMap (asObject v)))
    = CheckGet (PKey key :: rest) (mkJson v).
Proof.
  rewrite !CheckGet_step. destruct v; simpl; try done;
    by rewrite lookup_empty.
Qed.

Lemma setBranch_frame (common : list string) (k k' : string)
    (rest : list string) (rest' : list step) (val : value)
    (curr : gmap string value) :
  k ≠ k' →
  CheckGet ((PKey <$> common) ++ PKey k' :: rest')
           (mkJson (VMap (setBranch (common ++ k :: rest) val curr)))
    = CheckGet ((PKey <$> common) ++ PKey k' :: rest') (mkJson (VMap curr)).
Proof.
  intros Hne. revert curr. induction common as [|b c IH]; intros curr.
  - simpl app. rewrite setBranch_step, !CheckGet_step. simpl.
    by rewrite lookup_insert_ne.
  - rewrite <- app_comm_cons, setBranch_cons by (by destruct c).
    rewrite fmap_cons, <- app_comm_cons, !CheckGet_step. simpl.
    rewrite lookup_insert_eq, IH.
    destruct c as [|b' c]; simpl app; rewrite ?fmap_cons, <- ?app_comm_cons;
      (destruct (curr !! b) as [v|]; simpl;
       [apply CheckGet_key_asObject
       | rewrite CheckGet_step; simpl; by rewrite lookup_empty]).
Qed.

(** X9. On a document that is a tree, one in which no map is stored in two
    places (every decoded document is one, and only such documents are
    values of [Json] here), [SetPath] leaves alone what is off its branch: a
    walk that follows the branch for some keys and then takes another key,
    and goes on from there in any way, gives after [SetPath] the result (or
    the panic) that it gave before. Where one Go map is stored under two
    keys, a write through one shows through the other, and this does not
    hold of the source. *)
Theorem SetPath_frame (common : list string) (k k' : string)
    (rest : list string) (rest' : list step) (val : value) (j : Json) :
  k ≠ k' →
  CheckGet ((PKey <$> common) ++ PKey k' :: rest')
           (SetPath (common ++ k :: rest) val j)
    = CheckGet ((PKey <$> common) ++ PKey k' :: rest') j.
Proof.
  intros Hne.
  assert (∃ b l, common ++ k :: rest = b :: l) as (b & l & Hbl)
    by (destruct common; simpl; eauto).
  rewrite Hbl, SetPath_nonempty, <- Hbl, setBranch_frame by done.
  rewrite <- (Json_eta j) at 2.
  destruct common; simpl app; rewrite ?fmap_cons; apply CheckGet_key_asObject.
Qed.

(** X9 on the document of the spec: writing ["a"; "z"] leaves the walk
    ["a"; "b"; 2; "c"] as it was. *)
Lemma SetPath_frame_witness :
  CheckGet [PKey "a"; PKey "b"; PIndex 2; PKey "c"]
           (SetPath ["a"; "z"] VNil doc_nested)
    = CheckGet [PKey "a"; PKey "b"; PIndex 2; PKey "c"] doc_nested.
Proof.
  by apply (SetPath_frame ["a"] "z" "b" [] [PIndex 2; PKey "c"] VNil
              doc_nested).
Defined.

Lemma setBranch_overwrite (branch : list string) (val val' : value)
    (curr : gmap string value) :
  setBranch branch val' (setBranch branch val curr) = setBranch branch val' curr.
Proof.
  revert curr. induction branch as [|b rest IH]; intros curr; [done|].
  rewrite (setBranch_step b rest val curr), setBranch_step.
  rewrite lookup_insert_eq, insert_insert_eq, (setBranch_step b rest val').
  destruct rest; [done|]. cbn [from_option asObject]. by rewrite IH.
Qed.

(** X10. [SetPath] twice with one branch keeps the second value: the
    document is the one that the second call alone gives. *)
Theorem SetPath_overwrite (branch : list string) (val val' : value)
    (j : Json) :
  SetPath branch val' (SetPath branch val j) = SetPath branch val' j.
Proof.
  destruct branch as [|b rest]; [done|].
  rewrite !SetPath_nonempty. cbn [data asObject].
  by rewrite setBranch_overwrite.
Qed.

Lemma setBranch_commute (common : list string) (k1 k2 : string)
    (r1 r2 : list string) (v1 v2 : value) (curr : gmap string value) :
  k1 ≠ k2 →
  setBranch (common ++ k1 :: r1) v1 (setBranch (common ++ k2 :: r2) v2 curr)
    = setBranch (common ++ k2 :: r2) v2
        (setBranch (common ++ k1 :: r1) v1 curr).
Proof.
  intros Hne. revert curr. induction common as [|b c IH]; intros curr.
  - simpl app. rewrite (setBranch_step k2 r2 v2 curr).
    rewrite (setBranch_step k1 r1 v1 curr), !setBranch_step.
    rewrite !lookup_insert_ne by done. by apply insert_insert_ne.
  - rewrite <- !app_comm_cons.
    rewrite (setBranch_cons b (c ++ k2 :: r2) v2 curr) by (by destruct c).
    rewrite (setBranch_cons b (c ++ k1 :: r1) v1 curr) by (by destruct c).
    rewrite !setBranch_cons by (by destruct c).
    rewrite !lookup_insert_eq, !insert_insert_eq. cbn [from_option asObject].
    by rewrite IH.
Qed.

(** X11. On a document that is a tree, one in which no map is stored in
    two places (only such documents are values of [Json] here), two calls of
    [SetPath] whose branches part at some key commute: either order gives
    the same document. Where one Go map is stored under two keys, the two
    calls may write to the same map, and this does not hold of the
    source. *)
Theorem SetPath_commute (common : list string) (k1 k2 : string)
    (r1 r2 : list string) (v1 v2 : value) (j : Json) :
  k1 ≠ k2 →
  SetPath (common ++ k1 :: r1) v1 (SetPath (common ++ k2 :: r2) v2 j)
    = SetPath (common ++ k2 :: r2) v2 (SetPath (common ++ k1 :: r1) v1 j).
Proof.
  intros Hne.
  assert (∃ b l, common ++ k1 :: r1 = b :: l) as (b1 & l1 & H1)
    by (destruct common; simpl; eauto).
  assert (∃ b l, common ++ k2 :: r2 = b :: l) as (b2 & l2 & H2)
    by (destruct common; simpl; eauto).
  rewrite H1, H2, !SetPath_nonempty. cbn [data asObject].
  rewrite <- H1, <- H2.
  by rewrite setBranch_commute.
Qed.

(** X11 for the branches ["a"; "x"] and ["a"; "y"; "z"] on a wrapper of
    nil. *)
Lemma SetPath_commute_witness :
  SetPath ["a"; "x"] VNil (SetPath ["a"; "y"; "z"] (VBool true) sentinel)
    = SetPath ["a"; "y"; "z"] (VBool true) (SetPath ["a"; "x"] VNil sentinel).
Proof.
  by apply (SetPath_commute ["a"] "x" "y" [] ["z"] VNil (VBool true) sentinel).
Defined.

Lemma SetPath_asObject (b : string) (rest : list string) (val : value)
    (j : Json) :
  SetPath (b :: rest) val (mkJson (VMap (asObject (data j))))
    = SetPath (b :: rest) val j.
Proof. reflexivity. Qed.

(** X12. [SetPath] is [Set] along the branch. With one key it is [Set] on
    the wrapper, or on a fresh empty object when the wrapper holds no
    object. With more keys it is [Set] of the first key to what [SetPath]
    with the rest of the branch makes of the wrapper that [Get] returns for
    that key. *)
Theorem SetPath_by_Set (k : string) (val : value) (j : Json) :
  SetPath [k] val j = Set_ k val (rootObject j) ∧
  ∀ (b : string) (rest : list string) (c : Json),
    Get [PKey k] j = Ret (Some c) →
    SetPath (k :: b :: rest) val j
      = Set_ k (data (SetPath (b :: rest) val c)) (rootObject j).
Proof.
  split.
  - by destruct j as [[]].
  - intros b rest c Hc. rewrite SetPath_cons by done.
    assert (mkJson (VMap (asObject (data j))) = rootObject j) as ->
      by (by destruct j as [[]]).
    f_equal. f_equal. rewrite <- (SetPath_asObject b rest val c). f_equal.
    f_equal. f_equal. unfold Get in Hc. rewrite CheckGet_step in Hc.
    destruct j as [d]. destruct d; simpl in *;
      try (injection Hc as <-; by rewrite lookup_empty).
    destruct (m !! k); simpl in *; by injection Hc as <-.
Qed.

(** X12 on [{"x": [1, 2]}]: the array under ["x"] is what [Get] returns,
    and [SetPath] with ["x"; "y"] sets ["x"] to what [SetPath] with ["y"]
    makes of it. *)
Lemma SetPath_by_Set_witness :
  SetPath ["x"; "y"] VNil doc_x12
    = Set_ "x" (data (SetPath ["y"] VNil (mkJson array_12))) (rootObject doc_x12).
Proof.
  by apply (SetPath_by_Set "x" VNil doc_x12).
Defined.

(** ** Accessors on the results of [Get] *)

(** X13. On a branch that [CheckGet] does not find, the chained call of a
    defaulted accessor on the result of [Get] returns the default it is
    given, and the zero value when it is given none; so for [String],
    [Bool], [Array], [Map], [JsonArray] and [JsonMap]. *)
Theorem accessors_on_missing_branch (branch : list step) (j : Json) :
  CheckGet branch j = Ret (None, false) →
  (∀ d, (r ←! Get branch j; jin ←! deref r; String [d] jin) = Ret d) ∧
  (∀ d, (r ←! Get branch j; jin ←! deref r; Bool [d] jin) = Ret d) ∧
  (∀ d, (r ←! Get branch j; jin ←! deref r; Array [d] jin) = Ret d) ∧
  (∀ d, (r ←! Get branch j; jin ←! deref r; Map [d] jin) = Ret d) ∧
  (∀ d, (r ←! Get branch j; jin ←! deref r; JsonArray [d] jin) = Ret d) ∧
  (∀ d, (r ←! Get branch j; jin ←! deref r; JsonMap [d] jin) = Ret d) ∧
  (r ←! Get branch j; jin ←! deref r; String [] jin) = Ret "" ∧
  (r ←! Get branch j; jin ←! deref r; Bool [] jin) = Ret false ∧
  (r ←! Get branch j; jin ←! deref r; Array [] jin) = Ret None ∧
  (r ←! Get branch j; jin ←! deref r; Map [] jin) = Ret None ∧
  (r ←! Get branch j; jin ←! deref r; JsonArray [] jin) = Ret None ∧
  (r ←! Get branch j; jin ←! deref r; JsonMap [] jin) = Ret None.
Proof. intros Hwalk. unfold Get. rewrite Hwalk. by repeat split. Qed.

(** X13 for the key ["missing"] of [{"n": null}]. *)
Lemma accessors_on_missing_branch_witness :
  (r ←! Get [PKey "missing"] doc_null; jin ←! deref r; String ["fallback"] jin)
    = Ret "fallback".
Proof.
  by apply (accessors_on_missing_branch [PKey "missing"] doc_null).
Defined.

(** X14. What [SetPath] stores under a branch is read back through the
    chained accessor of its type, with or without a default: a string by
    [String], a boolean by [Bool], an array by [Array] and an object by
    [Map], on every wrapper. *)
Theorem SetPath_read_back (p : list string) (k : string) (j : Json) :
  (∀ (s : string) (args : list string),
     (length args ≤ 1)%nat →
     (r ←! Get (PKey <$> (p ++ [k])) (SetPath (p ++ [k]) (VString s) j);
      jin ←! deref r; String args jin) = Ret s) ∧
  (∀ (b : bool) (args : list bool),
     (length args ≤ 1)%nat →
     (r ←! Get (PKey <$> (p ++ [k])) (SetPath (p ++ [k]) (VBool b) j);
      jin ←! deref r; Bool args jin) = Ret b) ∧
  (∀ (a : list value) (args : list (slice value)),
     (length args ≤ 1)%nat →
     (r ←! Get (PKey <$> (p ++ [k])) (SetPath (p ++ [k]) (VArray a) j);
      jin ←! deref r; Array args jin) = Ret (Some a)) ∧
  (∀ (m : gmap string value) (args : list (gomap value)),
     (length args ≤ 1)%nat →
     (r ←! Get (PKey <$> (p ++ [k])) (SetPath (p ++ [k]) (VMap m) j);
      jin ←! deref r; Map args jin) = Ret (Some m)).
Proof.
  unfold Get.
  repeat split; intros x args Hargs; rewrite SetPath_CheckGet;
    destruct args as [|d [|d' args]]; simpl in *; done || lia.
Qed.

(** X14 for a string stored three levels down in a wrapper of nil. *)
Lemma SetPath_read_back_witness :
  (r ←! Get [PKey "x"; PKey "y"; PKey "z"]
          (SetPath ["x"; "y"; "z"] (VString "v") sentinel);
   jin ←! deref r; String ["d"] jin) = Ret "v".
Proof.
  apply (proj1 (SetPath_read_back ["x"; "y"] "z" sentinel) "v" ["d"]).
  simpl. lia.
Defined.

(** ** [CheckJsonArray] and [CheckJsonMap]: the loops and their results *)

Lemma rangeJsonArray_fills (pre : list ptr) (a : list value) :
  rangeJsonArray (length pre) a (pre ++ replicate (length a) None)
    = Ret (pre ++ (Some <$> (mkJson <$> a))).
Proof.
  revert pre. induction a as [|val a IH]; intros pre; [done|].
  simpl. unfold index_assign.
  rewrite decide_True by (rewrite length_app; simpl; lia).
  simpl. rewrite insert_app_r_alt, Nat.sub_diag by lia. simpl.
  rewrite (cons_middle (Some (mkJson val)) pre), app_assoc.
  replace (S (length pre)) with (length (pre ++ [Some (mkJson val)]))
    by (rewrite length_app; simpl; lia).
  rewrite IH. by rewrite <- app_assoc.
Qed.

(** X15. The loop of [CheckJsonArray] stays within the slice it made: it
    does not panic, and it leaves no slot nil. On an array the result has
    the length of the array, and slot [i] points to a wrapper of element
    [i]; on anything else the call fails with the error of [CheckArray].
    This is the result that [CheckJsonArray] is taken to have above. *)
Theorem CheckJsonArray_loop_fills (j : Json) :
  CheckJsonArray_loop j =
    Ret (match CheckJsonArray j with
         | Ok ja => Ok (Some <$> ja)
         | Err msg => Err msg
         end) ∧
  match CheckArray j with
  | Ok a =>
      ∃ ja : list ptr,
        CheckJsonArray_loop j = Ret (Ok ja) ∧
        length ja = length a ∧
        ∀ i : nat, ja !! i = (λ val, Some (mkJson val)) <$> a !! i
  | Err msg => CheckJsonArray_loop j = Ret (Err msg)
  end.
Proof.
  unfold CheckJsonArray_loop, CheckJsonArray.
  destruct (CheckArray j) as [a|msg]; [|done].
  pose proof (rangeJsonArray_fills [] a) as Hfill. simpl in Hfill.
  rewrite Hfill. split; [done|]. eexists. split; [done|]. split.
  - by rewrite !length_fmap.
  - intros i. rewrite !list_lookup_fmap. by destruct (a !! i).
Qed.

Lemma rangeJsonMap_snoc (entries : list (string * value)) (key : string)
    (val : value) :
  rangeJsonMap (entries ++ [(key, val)])
    = <[key := Some (mkJson val)]> (rangeJsonMap entries).
Proof. unfold rangeJsonMap. by rewrite fold_left_app. Qed.

Lemma rangeJsonMap_list_to_map (entries : list (string * value)) :
  rangeJsonMap entries
    = list_to_map (prod_map id (Some ∘ mkJson) <$> reverse entries).
Proof.
  induction entries as [|[key val] entries IH] using rev_ind; [done|].
  by rewrite rangeJsonMap_snoc, reverse_snoc, fmap_cons, IH.
Qed.

(** X16. In whatever order the range over the map yields its entries, the
    loop of [CheckJsonMap] builds one and the same map: it has the keys of
    the wrapped object, and under each key a pointer, not nil, to a wrapper
    of the value under that key. This is the result that [CheckJsonMap] is
    taken to have above. *)
Theorem CheckJsonMap_loop_fills (j : Json) (m : gmap string value)
    (entries : list (string * value)) :
  CheckMap j = Ok m →
  entries ≡ₚ map_to_list m →
  ∃ jm : gmap string Json,
    CheckJsonMap j = Ok jm ∧
    rangeJsonMap entries = Some <$> jm ∧
    dom jm = dom m ∧
    ∀ key : string, jm !! key = mkJson <$> m !! key.
Proof.
  intros Hm Hperm. exists (mkJson <$> m). unfold CheckJsonMap. rewrite Hm.
  split; [done|]. split; [|split].
  - rewrite rangeJsonMap_list_to_map, list_to_map_fmap.
    rewrite (list_to_map_proper (reverse entries) (map_to_list m)).
    + by rewrite list_to_map_to_list, map_fmap_compose.
    + rewrite reverse_Permutation, Hperm. apply NoDup_fst_map_to_list.
    + by rewrite reverse_Permutation.
  - apply dom_fmap_L.
  - intros key. apply lookup_fmap.
Qed.

(** X16 on [{"n": null}], whose range yields the one entry. *)
Lemma CheckJsonMap_loop_fills_witness :
  ∃ jm : gmap string Json,
    CheckJsonMap doc_null = Ok jm ∧
    rangeJsonMap [("n", VNil)] = Some <$> jm ∧
    dom jm = dom ({[ "n" := VNil ]} : gmap string value) ∧
    ∀ key : string,
      jm !! key = mkJson <$> ({[ "n" := VNil ]} : gmap string value) !! key.
Proof.
  apply (CheckJsonMap_loop_fills doc_null {[ "n" := VNil ]} [("n", VNil)]).
  - reflexivity.
  - by rewrite map_to_list_singleton.
Defined.

(** X17. The wrappers that [CheckJsonMap] and [CheckJsonArray] return are
    the ones that the lookups return: for every key, [getKey] finds what
    the map of [CheckJsonMap] holds under it and nothing when it holds
    nothing; for every index from 0 up, [getIndex] finds what the slice of
    [CheckJsonArray] holds at it and nothing beyond its end. *)
Theorem CheckJson_containers_agree_with_lookups (j : Json) :
  (∀ (jm : gmap string Json) (key : string),
     CheckJsonMap j = Ok jm →
     getKey key j = match jm !! key with
                    | Some w => (Some w, true)
                    | None => (None, false)
                    end) ∧
  (∀ (ja : list Json) (index : Z),
     CheckJsonArray j = Ok ja →
     0 ≤ index →
     getIndex index j = Ret (match ja !! Z.to_nat index with
                             | Some w => (Some w, true)
                             | None => (None, false)
                             end)).
Proof.
  destruct j as [d]. split.
  - intros jm key. unfold CheckJsonMap, getKey. destruct d; try done.
    simpl. intros [= <-]. rewrite lookup_fmap. by destruct (m !! key).
  - intros ja index. unfold CheckJsonArray. destruct d; try done.
    simpl. intros [= <-] Hpos. rewrite list_lookup_fmap.
    destruct (a !! Z.to_nat index) as [v|] eqn:Hv; simpl.
    + destruct (getIndex_in_range index a) as (v' & Hv' & ->); [|congruence].
      split; [done|]. apply lookup_lt_Some in Hv. lia.
    + apply getIndex_beyond. apply lookup_ge_None in Hv. lia.
Qed.

(** X17 on the object [{"n": null}] and on the array [[1, 2]]. *)
Lemma CheckJson_containers_agree_with_lookups_witness :
  getKey "n" doc_null = (Some (mkJson VNil), true) ∧
  getIndex 2 (mkJson array_12) = Ret (None, false).
Proof.
  split.
  - rewrite (proj1 (CheckJson_containers_agree_with_lookups doc_null)
               (mkJson <$> {[ "n" := VNil ]}) "n") by reflexivity.
    reflexivity.
  - rewrite (proj2 (CheckJson_containers_agree_with_lookups
                      (mkJson array_12))
               (mkJson <$> [VNum (S754_finite false 1 0);
                            VNum (S754_finite false 1 1)]) 2)
      by (reflexivity || lia).
    reflexivity.
Defined.
